(** * tqdm.asyncio: the asynchronous progress proxy, as_completed and gather

    A shallow embedding of [tqdm/asyncio.py].  Python objects with mutable
    state are modelled by explicit state passing: a call on the wrapped source
    is a function on the source's world, and the calls the proxy makes on the
    progress display ([update()], [close()]) are recorded in a call log. *)

From Stdlib Require Import List Arith Bool Lia Permutation Sorted ZArith.
Import ListNotations.

Set Implicit Arguments.

(** ** Exceptions and outcomes *)

(** The exceptions that matter to this module.  [BaseException oid] is any
    other exception object, identified by its object identity. *)
Inductive exn : Type :=
| StopIteration
| StopAsyncIteration
| AttributeError
| TypeError
| IndexError
| TimeoutError
| BaseException (oid : nat).

(** A Python call either returns a value or raises. *)
Inductive outcome (A : Type) : Type :=
| Return (a : A)
| Raise (e : exn).

Arguments Return {A} a.
Arguments Raise {A} e.

(** ** The collaborators, seen through the calls made on them

    [Update] and [Close] are calls of [update()] and [close()] on the
    progress display; [Cancel idx] is a cancel call on the operation with
    index [idx]. *)

Inductive event : Type :=
| Update
| Close
| Cancel (idx : nat).

Definition event_eqb (a b : event) : bool :=
  match a, b with
  | Update, Update => true
  | Close, Close => true
  | Cancel i, Cancel j => Nat.eqb i j
  | _, _ => false
  end.

(** Number of times the call [ev] occurs in a log. *)
Definition calls (ev : event) (l : list event) : nat :=
  length (filter (event_eqb ev) l).

Record state (W : Type) : Type := mkState {
  world : W;
  log : list event
}.

Section Proxy.

Context {W V A : Type}.

(** A call that may read and change the world of the wrapped source. *)
Definition call (B : Type) : Type := W -> outcome B * W.

(** An awaitable; awaiting it runs it to its result. *)
Definition awaitable : Type := call A.

(** An iterator object, through its [__next__]. *)
Record iterator : Type := mkIterator {
  it_next : call A
}.

(** A wrapped source, through the attributes the proxy probes.  A field is
    [None] when [hasattr] is false for it. *)
Record source : Type := mkSource {
  src_anext : option (call awaitable);
  src_next : option (call A);
  src_iter : option (call iterator);
  src_send : option (V -> call A)
}.

(** What [iterable_next()] returns depends on [iterable_awaitable]. *)
Definition next_callable (aw : bool) : Type :=
  if aw then call awaitable else call A.

Record tqdm_asyncio : Type := mkTqdm {
  iterable : option source;
  total : option nat;
  iterable_awaitable : bool;
  iterable_next : option (next_callable iterable_awaitable);
  iterable_iterator : option iterator
}.

(** The built-in [iter()]. *)
Definition py_iter (s : source) : call iterator :=
  match src_iter s with
  | Some f => f
  | None => fun w => (Raise TypeError, w)
  end.

(** [tqdm_asyncio.__init__].  [std_tqdm.__init__] stores the source and the
    total; it is not in this module. *)
Definition __init__ (it : option source) (tot : option nat) : call tqdm_asyncio :=
  fun w =>
    match it with
    | None => (Return (mkTqdm None tot false None None), w)
    | Some s =>
      match src_anext s with
      | Some m => (Return (mkTqdm (Some s) tot true (Some m) None), w)
      | None =>
        match src_next s with
        | Some m => (Return (mkTqdm (Some s) tot false (Some m) None), w)
        | None =>
          match py_iter s w with
          | (Return i, w') =>
            (Return (mkTqdm (Some s) tot false (Some (it_next i)) (Some i)), w')
          | (Raise e, w') => (Raise e, w')
          end
        end
      end
    end.

Definition set_world (st : state W) (w : W) : state W :=
  mkState w (log st).

Definition update (st : state W) : state W :=
  mkState (world st) (log st ++ [Update]).

Definition close (st : state W) : state W :=
  mkState (world st) (log st ++ [Close]).

(** The body of the [try] of [__anext__], up to and including
    [self.update()]. *)
Definition pull (self : tqdm_asyncio) (st : state W) : outcome A * state W :=
  match iterable_awaitable self as b
        return option (next_callable b) -> outcome A * state W with
  | true => fun nx =>
    match nx with
    | None => (Raise AttributeError, st)
    | Some m =>
      match m (world st) with
      | (Return aw, w1) =>
        match aw w1 with
        | (Return res, w2) => (Return res, update (set_world st w2))
        | (Raise e, w2) => (Raise e, set_world st w2)
        end
      | (Raise e, w1) => (Raise e, set_world st w1)
      end
    end
  | false => fun nx =>
    match nx with
    | None => (Raise AttributeError, st)
    | Some m =>
      match m (world st) with
      | (Return res, w1) => (Return res, update (set_world st w1))
      | (Raise e, w1) => (Raise e, set_world st w1)
      end
    end
  end (iterable_next self).

(** [tqdm_asyncio.__anext__]. *)
Definition __anext__ (self : tqdm_asyncio) (st : state W) : outcome A * state W :=
  match pull self st with
  | (Return res, st') => (Return res, st')
  | (Raise StopIteration, st') => (Raise StopAsyncIteration, close st')
  | (Raise e, st') => (Raise e, close st')
  end.

(** [tqdm_asyncio.send]. *)
Definition send (self : tqdm_asyncio) (args : V) (st : state W) : outcome A * state W :=
  match iterable self with
  | None => (Raise AttributeError, st)
  | Some s =>
    match src_send s with
    | None => (Raise AttributeError, st)
    | Some f =>
      match f args (world st) with
      | (r, w') => (r, set_world st w')
      end
    end
  end.

End Proxy.

Arguments call : clear implicits.
Arguments awaitable : clear implicits.
Arguments iterator : clear implicits.
Arguments source : clear implicits.
Arguments tqdm_asyncio : clear implicits.

(** ** Consumers of the proxy *)

Section Consumers.

Context {W V A : Type}.

(** [async for x in self]: calls [__anext__] until it raises.  The loop ends
    normally on [StopAsyncIteration]; any other exception propagates.  The
    result is the list of elements produced and the exception that ended the
    loop; [None] when the fuel runs out first. *)
Fixpoint async_for (fuel : nat) (self : tqdm_asyncio W V A) (st : state W)
  : option (list A * exn * state W) :=
  match fuel with
  | 0 => None
  | S fuel' =>
    match __anext__ self st with
    | (Return x, st') =>
      match async_for fuel' self st' with
      | Some (xs, e, st'') => Some (x :: xs, e, st'')
      | None => None
      end
    | (Raise e, st') => Some ([], e, st')
    end
  end.

(** [n] successive iteration attempts, whatever each one returns or raises. *)
Fixpoint attempts (n : nat) (self : tqdm_asyncio W V A) (st : state W)
  : list (outcome A) * state W :=
  match n with
  | 0 => ([], st)
  | S n' =>
    match __anext__ self st with
    | (o, st') =>
      match attempts n' self st' with
      | (os, st'') => (o :: os, st'')
      end
    end
  end.

Definition is_raise (o : outcome A) : bool :=
  match o with
  | Return _ => false
  | Raise _ => true
  end.

Definition raises (os : list (outcome A)) : nat :=
  length (filter is_raise os).

Definition returns (os : list (outcome A)) : nat :=
  length (filter (fun o => negb (is_raise o)) os).

(** Modelled from the spec: the synchronous produce-next step of the proxy,
    which [std_tqdm] implements and [as_completed] reaches through
    [yield from].  Spec 4.1: the step calls the bound advance operation; on
    success it performs one update and returns the element; on exhaustion it
    performs close and signals synchronous exhaustion; on any other failure
    it performs close and re-raises.  A binding that has to be awaited cannot
    be advanced by a synchronous consumer. *)
Definition std_next (self : tqdm_asyncio W V A) (st : state W) : outcome A * state W :=
  if iterable_awaitable self then (Raise TypeError, st)
  else
    match pull self st with
    | (Return res, st') => (Return res, st')
    | (Raise e, st') => (Raise e, close st')
    end.

(** [for x in self]: the synchronous counterpart of [async_for]. *)
Fixpoint drain (fuel : nat) (self : tqdm_asyncio W V A) (st : state W)
  : option (list A * exn * state W) :=
  match fuel with
  | 0 => None
  | S fuel' =>
    match std_next self st with
    | (Return x, st') =>
      match drain fuel' self st' with
      | Some (xs, e, st'') => Some (x :: xs, e, st'')
      | None => None
      end
    | (Raise e, st') => Some ([], e, st')
    end
  end.

(** One advance of an asynchronous source: call [__anext__], await the
    result. *)
Definition advance_async (m : call W (awaitable W A)) : call W A :=
  fun w =>
    match m w with
    | (Return aw, w1) => aw w1
    | (Raise e, w1) => (Raise e, w1)
    end.

(** [yields m w xs e w']: from world [w], successive calls of [m] return the
    elements [xs] and then raise [e], leaving the world [w']. *)
Inductive yields (m : call W A) : W -> list A -> exn -> W -> Prop :=
| yields_raise : forall w e w',
    m w = (Raise e, w') -> yields m w [] e w'
| yields_return : forall w x w1 xs e w',
    m w = (Return x, w1) -> yields m w1 xs e w' -> yields m w (x :: xs) e w'.

(** The three kinds of source the constructor tells apart, each producing
    [xs] and then raising [e]. *)
Inductive source_run (s : source W V A) (w : W) (xs : list A) (e : exn) (w' : W) : Prop :=
| run_asynchronous : forall m,
    src_anext s = Some m ->
    yields (advance_async m) w xs e w' ->
    source_run s w xs e w'
| run_iterator : forall m,
    src_anext s = None -> src_next s = Some m ->
    yields m w xs e w' ->
    source_run s w xs e w'
| run_collection : forall f i w0,
    src_anext s = None -> src_next s = None -> src_iter s = Some f ->
    f w = (Return i, w0) ->
    yields (it_next i) w0 xs e w' ->
    source_run s w xs e w'.

(** The exhaustion signal of a source: [StopAsyncIteration] for an
    asynchronous iterator, [StopIteration] otherwise. *)
Definition exhaustion (s : source W V A) : exn :=
  match src_anext s with
  | Some _ => StopAsyncIteration
  | None => StopIteration
  end.

(** The proxy with its [iterable] attribute replaced. *)
Definition with_iterable (self : tqdm_asyncio W V A) (s : option (source W V A))
  : tqdm_asyncio W V A :=
  mkTqdm s (total self) (iterable_awaitable self) (iterable_next self)
    (iterable_iterator self).

End Consumers.

(** ** Comparison of Python values and the built-in [sorted] *)

(** [==] and [<] of a Python type; either may raise (two values of types that
    do not compare raise [TypeError] on [<]). *)
Class PyOrd (T : Type) : Type := {
  py_eq : T -> T -> outcome bool;
  py_lt : T -> T -> outcome bool
}.

#[export] Instance PyOrd_int : PyOrd nat := {|
  py_eq := fun a b => Return (Nat.eqb a b);
  py_lt := fun a b => Return (Nat.ltb a b)
|}.

(** Tuples compare lexicographically: the first position where the two
    tuples differ under [==] decides, by [<] at that position. *)
#[export] Instance PyOrd_tuple {A B : Type} `{PyOrd A} `{PyOrd B} : PyOrd (A * B) := {|
  py_eq := fun x y =>
    match py_eq (fst x) (fst y) with
    | Raise e => Raise e
    | Return false => Return false
    | Return true => py_eq (snd x) (snd y)
    end;
  py_lt := fun x y =>
    match py_eq (fst x) (fst y) with
    | Raise e => Raise e
    | Return false => py_lt (fst x) (fst y)
    | Return true =>
      match py_eq (snd x) (snd y) with
      | Raise e => Raise e
      | Return false => py_lt (snd x) (snd y)
      | Return true => Return false
      end
    end
|}.

Section Sorted.

Context {T : Type} `{PyOrd T}.

(** Inserts [x] before the first element that [x] is less than. *)
Fixpoint insort (x : T) (l : list T) : outcome (list T) :=
  match l with
  | [] => Return [x]
  | y :: l' =>
    match py_lt x y with
    | Raise e => Raise e
    | Return true => Return (x :: y :: l')
    | Return false =>
      match insort x l' with
      | Raise e => Raise e
      | Return r => Return (y :: r)
      end
    end
  end.

Fixpoint sort_into (acc : list T) (l : list T) : outcome (list T) :=
  match l with
  | [] => Return acc
  | x :: l' =>
    match insort x acc with
    | Raise e => Raise e
    | Return acc' => sort_into acc' l'
    end
  end.

(** The built-in [sorted]: a stable sort that compares elements with [<]
    only, and fails when a comparison raises. *)
Definition sorted (l : list T) : outcome (list T) :=
  sort_into [] l.

End Sorted.

(** A stable sort of (index, result) pairs by index alone, as the spec words
    the ordering step of gather; it never looks at a result. *)
Fixpoint insert_by_index {T : Type} (x : nat * T) (l : list (nat * T)) : list (nat * T) :=
  match l with
  | [] => [x]
  | y :: l' =>
    if Nat.ltb (fst x) (fst y) then x :: y :: l'
    else y :: insert_by_index x l'
  end.

Definition stable_sort_by_index {T : Type} (l : list (nat * T)) : list (nat * T) :=
  fold_left (fun acc x => insert_by_index x acc) l [].

(** ** Asynchronous operations and the scheduler *)

(** An in-flight asynchronous operation, through the outcome it settles
    to. *)
Inductive future (T : Type) : Type :=
| Settled (o : outcome T).

Arguments Settled {T} o.

(** [await f]. *)
Definition await {T : Type} (f : future T) : outcome T :=
  match f with
  | Settled o => o
  end.

(** What the scheduler decides in one run: the order in which the operations
    complete (as indices into the input list) and how many of them complete
    before the deadline, when there is one. *)
Record schedule : Type := mkSchedule {
  order : list nat;
  in_time : nat
}.

Definition expired (timeout : option nat) (sch : schedule) (k : nat) : bool :=
  match timeout with
  | Some _ => Nat.leb (in_time sch) k
  | None => false
  end.

(** The elements of [l] at the indices [ord], in that order. *)
Definition select {X : Type} (l : list X) (ord : list nat) : list X :=
  flat_map (fun i => match nth_error l i with
                     | Some x => [x]
                     | None => []
                     end) ord.

(** The input operations in completion order. *)
Definition completed {T : Type} (fs : list (future T)) (sch : schedule) : list (future T) :=
  select fs (order sch).

(** Modelled from the spec: one advance of the platform's
    unordered-completion primitive ([asyncio.as_completed], which is not part
    of this module).  Spec 6: given a collection of in-flight operations and
    an optional timeout, it produces a lazy sequence yielding each
    operation's settled result (or raising on timeout) in completion order,
    of length equal to the input count.  The world is the number of items
    handed out so far. *)
Definition asyncio_next {T : Type} (fs : list (future T)) (timeout : option nat)
    (sch : schedule) : call nat (future T) :=
  fun k =>
    match nth_error (completed fs sch) k with
    | Some f =>
      (Return (if expired timeout sch k then Settled (Raise TimeoutError) else f), S k)
    | None => (Raise StopIteration, k)
    end.

(** Modelled from the spec: the iterator that [asyncio.as_completed]
    returns; it is its own iterator and has no asynchronous advance.  The
    event loop handle [loop] has no effect on the sequence. *)
Definition asyncio_as_completed {T : Type} (fs : list (future T)) (loop : option nat)
    (timeout : option nat) (sch : schedule) : source nat unit (future T) :=
  mkSource None
           (Some (asyncio_next fs timeout sch))
           (Some (fun k => (Return (mkIterator (asyncio_next fs timeout sch)), k)))
           None.

(** ** as_completed and gather *)

(** [tqdm_asyncio.as_completed].  The generator delegates every pull to the
    proxy it builds ([yield from]), so it is represented by that proxy and
    the world of the fresh platform iterator. *)
Definition as_completed {T : Type} (fs : list (future T)) (loop : option nat)
    (timeout : option nat) (total : option nat) (sch : schedule)
  : outcome (tqdm_asyncio nat unit (future T)) * nat :=
  let total :=
    match total with
    | None => Some (length fs)
    | Some t => Some t
    end in
  __init__ (Some (asyncio_as_completed fs loop timeout sch)) total 0.

(** [wrap_awaitable] of gather: [return number, await awaitable]. *)
Definition wrap_awaitable {T : Type} (number : nat) (aw : future T) : future (nat * T) :=
  Settled match await aw with
          | Return r => Return (number, r)
          | Raise e => Raise e
          end.

(** [l[idx]]. *)
Definition getitem {T : Type} (l : list T) (idx : nat) : outcome T :=
  match nth_error l idx with
  | Some x => Return x
  | None => Raise IndexError
  end.

(** [[f(x) for x in l]], stopping at the first exception. *)
Fixpoint comprehension {A B : Type} (f : A -> outcome B) (l : list A) : outcome (list B) :=
  match l with
  | [] => Return []
  | x :: l' =>
    match f x with
    | Raise e => Raise e
    | Return y =>
      match comprehension f l' with
      | Raise e => Raise e
      | Return ys => Return (y :: ys)
      end
    end
  end.

(** [[await f for f in gen]] over the generator represented by [self]. *)
Fixpoint await_each {T : Type} (fuel : nat) (self : tqdm_asyncio nat unit (future T))
    (st : state nat) : option (outcome (list T) * state nat) :=
  match fuel with
  | 0 => None
  | S fuel' =>
    match std_next self st with
    | (Raise StopIteration, st') => Some (Return [], st')
    | (Raise e, st') => Some (Raise e, st')
    | (Return f, st') =>
      match await f with
      | Raise e => Some (Raise e, st')
      | Return r =>
        match await_each fuel' self st' with
        | Some (Return rs, st'') => Some (Return (r :: rs), st'')
        | other => other
        end
      end
    end
  end.

(** gather up to and including the collection of [numbered_results]. *)
Definition gather_collect {T : Type} (fs : list (future T)) (loop : option nat)
    (timeout : option nat) (total : option nat) (sch : schedule)
  : option (outcome (list (nat * T)) * state nat) :=
  let total :=
    match total with
    | None => Some (length fs)
    | Some t => Some t
    end in
  match comprehension (fun idx => match getitem fs idx with
                                  | Return f => Return (wrap_awaitable idx f)
                                  | Raise e => Raise e
                                  end) (seq 0 (length fs)) with
  | Raise e => Some (Raise e, mkState 0 [])
  | Return numbered_awaitables =>
    match as_completed numbered_awaitables loop timeout total sch with
    | (Raise e, w) => Some (Raise e, mkState w [])
    | (Return gen, w) =>
      await_each (S (length numbered_awaitables)) gen (mkState w [])
    end
  end.

(** [tqdm_asyncio.gather]. *)
Definition gather {T : Type} `{PyOrd T} (fs : list (future T)) (loop : option nat)
    (timeout : option nat) (total : option nat) (sch : schedule)
  : option (outcome (list T) * state nat) :=
  match gather_collect fs loop timeout total sch with
  | None => None
  | Some (Raise e, st) => Some (Raise e, st)
  | Some (Return numbered_results, st) =>
    match sorted numbered_results with
    | Raise e => Some (Raise e, st)
    | Return s => Some (Return (map snd s), st)
    end
  end.

(** Every operation settles before the deadline, if there is one. *)
Definition no_expiry (timeout : option nat) (sch : schedule) (n : nat) : Prop :=
  forall k, k < n -> expired timeout sch k = false.

(** The scheduler completes each of the [n] operations exactly once. *)
Definition fair (sch : schedule) (n : nat) : Prop :=
  Permutation (order sch) (seq 0 n).

(** ** Concrete sources

    A scripted source: its world is the list of outcomes still to come; each
    advance consumes the head, and an empty script raises [stop]. *)

Definition script : Type := list (outcome nat).

Definition scripted_next (stop : exn) : call script nat :=
  fun w =>
    match w with
    | [] => (Raise stop, [])
    | o :: w' => (o, w')
    end.

(** A plain collection: only [iter()] works on it. *)
Definition collection_source : source script nat nat :=
  mkSource None None
           (Some (fun w => (Return (mkIterator (scripted_next StopIteration)), w)))
           None.

(** A synchronous iterator. *)
Definition iterator_source : source script nat nat :=
  mkSource None
           (Some (scripted_next StopIteration))
           (Some (fun w => (Return (mkIterator (scripted_next StopIteration)), w)))
           None.

(** An asynchronous iterator: [__anext__] returns a coroutine, and awaiting
    it advances the script. *)
Definition async_source : source script nat nat :=
  mkSource (Some (fun w => (Return (scripted_next StopAsyncIteration), w)))
           None None None.

(** A generator: a synchronous iterator with [send]; the value sent is added
    to the element produced. *)
Definition generator_source : source script nat nat :=
  mkSource None
           (Some (scripted_next StopIteration))
           (Some (fun w => (Return (mkIterator (scripted_next StopIteration)), w)))
           (Some (fun v w =>
                    match scripted_next StopIteration w with
                    | (Return x, w') => (Return (x + v), w')
                    | (Raise e, w') => (Raise e, w')
                    end)).

(** The close calls made by [n] iteration attempts on a fresh proxy over
    [s]. *)
Definition close_calls (s : source script nat nat) (w : script) (n : nat) : nat :=
  match __init__ (Some s) None w with
  | (Return self, w0) => calls Close (log (snd (attempts n self (mkState w0 []))))
  | (Raise _, _) => 0
  end.

(** ** Auxiliary definitions used to state the results *)

Section Bound.

Context {W V A : Type}.

(** The advance operation a proxy is bound to: for an asynchronous binding,
    the call followed by the await. *)
Definition bound_advance (self : tqdm_asyncio W V A) : call W A :=
  match iterable_awaitable self as b return option (next_callable b) -> call W A with
  | true => fun nx =>
    match nx with
    | Some m => advance_async m
    | None => fun w => (Raise AttributeError, w)
    end
  | false => fun nx =>
    match nx with
    | Some m => m
    | None => fun w => (Raise AttributeError, w)
    end
  end (iterable_next self).

(** The exception [__anext__] raises when the bound advance raises [e]. *)
Definition translate (e : exn) : exn :=
  match e with
  | StopIteration => StopAsyncIteration
  | _ => e
  end.

End Bound.

(** The input operations of gather with their index tags, from index [k]. *)
Fixpoint numbered_from {T : Type} (k : nat) (fs : list (future T)) : list (future (nat * T)) :=
  match fs with
  | [] => []
  | f :: fs' => wrap_awaitable k f :: numbered_from (S k) fs'
  end.

(** The item the platform hands out at position [k] for the completed
    operation [f]. *)
Definition deliver {T : Type} (timeout : option nat) (sch : schedule) (k : nat)
    (f : future T) : future T :=
  if expired timeout sch k then Settled (Raise TimeoutError) else f.

(** The items handed out for the completed operations [items], from
    position [k]. *)
Fixpoint deliver_from {T : Type} (timeout : option nat) (sch : schedule) (k : nat)
    (items : list (future T)) : list (future T) :=
  match items with
  | [] => []
  | f :: items' => deliver timeout sch k f :: deliver_from timeout sch (S k) items'
  end.

(** What the collection loop of gather computes over the items still to be
    handed out, from position [k]. *)
Fixpoint collect {T : Type} (timeout : option nat) (sch : schedule) (k : nat)
    (items : list (future T)) (lg : list event) : outcome (list T) * state nat :=
  match items with
  | [] => (Return [], mkState k (lg ++ [Close]))
  | f :: items' =>
    match await (deliver timeout sch k f) with
    | Raise e => (Raise e, mkState (S k) (lg ++ [Update]))
    | Return r =>
      match collect timeout sch (S k) items' (lg ++ [Update]) with
      | (Return rs, st) => (Return (r :: rs), st)
      | other => other
      end
    end
  end.

(** Operations that all succeed, with results [rs]. *)
Definition succeeding {T : Type} (rs : list T) : list (future T) :=
  map (fun r => Settled (Return r)) rs.

Definition index_le {T : Type} (a b : nat * T) : Prop := fst a <= fst b.

(** Results that do not compare: [==] is false and [<] raises. *)
Definition PyOrd_incomparable (T : Type) : PyOrd T := {|
  py_eq := fun _ _ => Return false;
  py_lt := fun _ _ => Raise TypeError
|}.

(** An asynchronous iterator whose [__anext__] is a plain method that
    raises [StopIteration] when called, before there is anything to
    await. *)
Definition stop_raising_async_source : source script nat nat :=
  mkSource (Some (fun w : script => (Raise StopIteration, w))) None None None.

(** ** The rest of the module: [__aiter__] and [tarange] *)

(** [tqdm_asyncio.__aiter__]. *)
Definition __aiter__ {W V A : Type} (self : tqdm_asyncio W V A) : tqdm_asyncio W V A :=
  self.

(** Whether an outcome is a raised [StopIteration]. *)
Definition is_stop_iteration {A : Type} (o : outcome A) : bool :=
  match o with
  | Raise StopIteration => true
  | _ => false
  end.

(** [ValueError]: one of the exception objects this module does not name. *)
Definition ValueError : exn := BaseException 0.

(** A [range] object. *)
Record range : Type := mkRange {
  range_start : Z;
  range_stop : Z;
  range_step : Z
}.

(** The built-in [range] on positional arguments: one to three integers; a zero step is a
    [ValueError], any other number of arguments a [TypeError]. *)
Definition py_range (args : list Z) : outcome range :=
  match args with
  | [stop] => Return (mkRange 0 stop 1)
  | [start; stop] => Return (mkRange start stop 1)
  | [start; stop; step] =>
    if Z.eqb step 0 then Raise ValueError else Return (mkRange start stop step)
  | _ => Raise TypeError
  end.

(** [len(r)]. *)
Definition range_len (r : range) : nat :=
  Z.to_nat
    (if Z.ltb 0 (range_step r) then
       if Z.ltb (range_start r) (range_stop r)
       then (range_stop r - range_start r - 1) / range_step r + 1
       else 0
     else
       if Z.ltb (range_stop r) (range_start r)
       then (range_start r - range_stop r - 1) / (- range_step r) + 1
       else 0)%Z.

(** [r[i]] for [i] below [len(r)]. *)
Definition range_item (r : range) (i : nat) : Z :=
  (range_start r + Z.of_nat i * range_step r)%Z.

(** [__next__] of a range iterator; the world is the number of elements it
    has produced. *)
Definition range_next (r : range) : call nat Z :=
  fun i =>
    if Nat.ltb i (range_len r) then (Return (range_item r i), S i)
    else (Raise StopIteration, i).

(** A range as a source: it is no iterator, and every [iter()] on it starts
    a fresh iterator. *)
Definition range_source (r : range) : source nat unit Z :=
  mkSource None None
           (Some (fun _ => (Return (mkIterator (range_next r)), 0)))
           None.

(** [tarange]: the proxy over the range built from the positional
    arguments. *)
Definition tarange (args : list Z) (tot : option nat) : call nat (tqdm_asyncio nat unit Z) :=
  fun w =>
    match py_range args with
    | Raise e => (Raise e, w)
    | Return r => __init__ (Some (range_source r)) tot w
    end.

(** The elements of a range, in order. *)
Definition range_elements (r : range) : list Z :=
  map (range_item r) (seq 0 (range_len r)).

(** * Results *)

(** ** The proxy *)

Section ProxyFacts.

Context {W V A : Type}.

Implicit Types (self : tqdm_asyncio W V A) (st : state W) (s : source W V A).

Lemma pull_bound self st :
  pull self st =
  match bound_advance self (world st) with
  | (Return res, w1) => (Return res, update (set_world st w1))
  | (Raise e, w1) => (Raise e, set_world st w1)
  end.
Proof.
  destruct self as [it tot aw nx ii]. destruct st as [w lg].
  unfold pull, bound_advance; simpl.
  destruct aw; destruct nx as [m|]; simpl; try reflexivity;
    unfold advance_async; destruct (m w) as [[a|e] w1]; reflexivity.
Qed.

Lemma anext_bound self st :
  __anext__ self st =
  match bound_advance self (world st) with
  | (Return res, w1) => (Return res, update (set_world st w1))
  | (Raise e, w1) => (Raise (translate e), close (set_world st w1))
  end.
Proof.
  unfold __anext__. rewrite pull_bound.
  destruct (bound_advance self (world st)) as [[a|e] w1]; try reflexivity.
  destruct e; reflexivity.
Qed.

(** Driving a proxy whose bound advance produces [xs] and then raises [e]. *)
Lemma async_for_yields self xs e w w' :
  yields (bound_advance self) w xs e w' ->
  forall fuel lg, length xs < fuel ->
  async_for fuel self (mkState w lg) =
  Some (xs, translate e, mkState w' (lg ++ repeat Update (length xs) ++ [Close])).
Proof.
  induction 1 as [w e w' Hm | w x w1 xs e w' Hm Hy IH]; intros fuel lg Hfuel.
  - destruct fuel as [|fuel]; [simpl in Hfuel; lia|].
    simpl. rewrite anext_bound. simpl. rewrite Hm. reflexivity.
  - destruct fuel as [|fuel]; [simpl in Hfuel; lia|].
    simpl in Hfuel. simpl. rewrite anext_bound. simpl. rewrite Hm.
    unfold update, set_world; simpl.
    rewrite IH by lia. do 3 f_equal.
    rewrite <- app_assoc. simpl. reflexivity.
Qed.

(** The constructor binds the advance of the source it is given. *)
Lemma init_source_run s w xs e w' tot :
  source_run s w xs e w' ->
  exists self w0,
    __init__ (Some s) tot w = (Return self, w0) /\
    iterable self = Some s /\
    yields (bound_advance self) w0 xs e w'.
Proof.
  intros [m Ha Hy | m Ha Hn Hy | f i w0 Ha Hn Hi Hf Hy]; unfold __init__.
  - rewrite Ha. eexists _, _. split; [reflexivity|]. split; [reflexivity|exact Hy].
  - rewrite Ha, Hn. eexists _, _. split; [reflexivity|]. split; [reflexivity|exact Hy].
  - rewrite Ha, Hn. unfold py_iter. rewrite Hi, Hf.
    eexists _, _. split; [reflexivity|]. split; [reflexivity|exact Hy].
Qed.

Lemma init_iterable s tot w self w0 :
  __init__ (Some s) tot w = (Return self, w0) -> iterable self = Some s.
Proof.
  unfold __init__.
  destruct (src_anext s); [intros [= <- _]; reflexivity|].
  destruct (src_next s); [intros [= <- _]; reflexivity|].
  destruct (py_iter s w) as [[i|e] w1]; [intros [= <- _]; reflexivity|discriminate].
Qed.

End ProxyFacts.

Section ProxyClaims.

Context {W V A : Type}.

Implicit Types (self : tqdm_asyncio W V A) (st : state W) (s : source W V A).

(** C1.  For a finite source of any of the three kinds (asynchronous
    iterator, synchronous iterator, plain collection) that produces the
    elements [xs] and then signals exhaustion, the proxy built by the
    constructor, driven by [async for] with enough fuel, produces exactly
    [xs] in order and ends normally; the calls it makes on the display are
    [length xs] updates followed by one close. *)
Theorem iteration_to_completion s w xs w' tot lg fuel :
  source_run s w xs (exhaustion s) w' ->
  length xs < fuel ->
  exists self w0,
    __init__ (Some s) tot w = (Return self, w0) /\
    async_for fuel self (mkState w0 lg) =
    Some (xs, StopAsyncIteration,
          mkState w' (lg ++ repeat Update (length xs) ++ [Close])).
Proof.
  intros Hrun Hfuel.
  destruct (init_source_run tot Hrun) as (self & w0 & Hinit & _ & Hy).
  exists self, w0. split; [exact Hinit|].
  rewrite (async_for_yields self Hy) by exact Hfuel.
  unfold exhaustion. destruct (src_anext s); reflexivity.
Qed.

Lemma attempts_counts self n :
  forall st,
    calls Close (log (snd (attempts n self st))) =
      calls Close (log st) + raises (fst (attempts n self st)) /\
    calls Update (log (snd (attempts n self st))) =
      calls Update (log st) + returns (fst (attempts n self st)).
Proof.
  induction n as [|n IH]; intros st.
  - simpl. unfold raises, returns. simpl. lia.
  - simpl. rewrite anext_bound.
    destruct (bound_advance self (world st)) as [[a|e] w1].
    + specialize (IH (update (set_world st w1))).
      destruct (attempts n self (update (set_world st w1))) as [os st''].
      simpl in *. destruct IH as [IHc IHu]. rewrite IHc, IHu.
      unfold calls, raises, returns. simpl.
      rewrite !filter_app, !length_app. simpl. lia.
    + specialize (IH (close (set_world st w1))).
      destruct (attempts n self (close (set_world st w1))) as [os st''].
      simpl in *. destruct IH as [IHc IHu]. rewrite IHc, IHu.
      unfold calls, raises, returns. simpl.
      rewrite !filter_app, !length_app. simpl. lia.
Qed.

(** C2 (as the code has it).  Each iteration attempt that ends in a terminal
    event, exhaustion or failure, performs close exactly once, and an
    attempt that produces an element performs update exactly once and no
    close: over any [n] successive attempts the number of close calls is the
    number of attempts that raised, and the number of update calls is the
    number of attempts that returned.  The proxy keeps no record of having
    closed. *)
Theorem close_once_per_terminal_attempt self n st :
  calls Close (log (snd (attempts n self st))) =
    calls Close (log st) + raises (fst (attempts n self st)) /\
  calls Update (log (snd (attempts n self st))) =
    calls Update (log st) + returns (fst (attempts n self st)).
Proof. apply attempts_counts. Qed.

(** C3 (as the code has it).  For a source of any of the three kinds that
    produces the [k] elements [xs] and then raises an exception [e] other
    than [StopIteration], the proxy produces exactly [xs], makes [k] update
    calls followed by one close call, and the loop is ended by [e] itself.
    [StopIteration] is the one exception a step translates, for every
    binding. *)
Theorem failure_propagates_unchanged s w xs e w' tot lg fuel :
  source_run s w xs e w' ->
  e <> StopIteration ->
  length xs < fuel ->
  exists self w0,
    __init__ (Some s) tot w = (Return self, w0) /\
    async_for fuel self (mkState w0 lg) =
    Some (xs, e, mkState w' (lg ++ repeat Update (length xs) ++ [Close])).
Proof.
  intros Hrun He Hfuel.
  destruct (init_source_run tot Hrun) as (self & w0 & Hinit & _ & Hy).
  exists self, w0. split; [exact Hinit|].
  rewrite (async_for_yields self Hy) by exact Hfuel.
  destruct e; try reflexivity. contradiction.
Qed.

Lemma anext_ignores_iterable self (other : option (source W V A)) st :
  __anext__ (with_iterable self other) st = __anext__ self st.
Proof. destruct self; reflexivity. Qed.

(** C7.  With a source given, the constructor binds one advance operation,
    by priority: the asynchronous advance when the source has one, with
    [iterable_awaitable] set; else the source's own synchronous advance,
    with no iterator obtained; else the advance of a fresh iterator obtained
    with [iter()], an exception of [iter()] being raised by the constructor.
    An iteration step uses the binding only: it is the same whatever the
    source attribute holds afterwards. *)
Theorem constructor_binds_by_priority s tot w :
  (forall m, src_anext s = Some m ->
     __init__ (Some s) tot w = (Return (mkTqdm (Some s) tot true (Some m) None), w)) /\
  (forall m, src_anext s = None -> src_next s = Some m ->
     __init__ (Some s) tot w = (Return (mkTqdm (Some s) tot false (Some m) None), w)) /\
  (src_anext s = None -> src_next s = None ->
     __init__ (Some s) tot w =
     match py_iter s w with
     | (Return i, w1) =>
       (Return (mkTqdm (Some s) tot false (Some (it_next i)) (Some i)), w1)
     | (Raise e, w1) => (Raise e, w1)
     end) /\
  (forall self (other : option (source W V A)) st,
     __anext__ (with_iterable self other) st = __anext__ self st).
Proof.
  unfold __init__. split; [|split; [|split]].
  - intros m ->. reflexivity.
  - intros m -> ->. reflexivity.
  - intros -> ->. reflexivity.
  - intros. apply anext_ignores_iterable.
Qed.

(** C9.  On a proxy built over a source that has [send], [send] passes its
    argument to the source's [send] and returns what that call returns or
    raises; the log of display calls is left as it was, so no update is
    made. *)
Theorem send_passes_through s tot w self w0 f (v : V) w1 lg :
  __init__ (Some s) tot w = (Return self, w0) ->
  src_send s = Some f ->
  send self v (mkState w1 lg) = (fst (f v w1), mkState (snd (f v w1)) lg).
Proof.
  intros Hinit Hsend. unfold send.
  rewrite (init_iterable _ _ _ Hinit), Hsend. simpl.
  destruct (f v w1); reflexivity.
Qed.

End ProxyClaims.

(** Instances of the results above on the scripted sources. *)

Lemma iteration_to_completion_witness :
  exists self w0,
    __init__ (Some async_source) None [Return 1; Return 2] = (Return self, w0) /\
    async_for 3 self (mkState w0 []) =
    Some ([1; 2], StopAsyncIteration,
          mkState [] ([] ++ repeat Update (length [1; 2]) ++ [Close])).
Proof.
  apply (@iteration_to_completion script nat nat async_source
           [Return 1; Return 2] [1; 2] [] None [] 3).
  - eapply run_asynchronous; [reflexivity|].
    eapply yields_return; [reflexivity|].
    eapply yields_return; [reflexivity|].
    eapply yields_raise. reflexivity.
  - simpl. lia.
Defined.

(** C2, against the claim that close is made at most once in the lifetime of
    a proxy: two iteration attempts on a proxy over an empty collection make
    two close calls. *)
Lemma close_fires_again_after_exhaustion :
  close_calls collection_source [] 2 = 2.
Proof. reflexivity. Qed.

Lemma failure_propagates_unchanged_witness :
  exists self w0,
    __init__ (Some iterator_source) None
      [Return 1; Raise (BaseException 9); Return 3] = (Return self, w0) /\
    async_for 2 self (mkState w0 []) =
    Some ([1], BaseException 9,
          mkState [Return 3] ([] ++ repeat Update (length [1]) ++ [Close])).
Proof.
  apply (@failure_propagates_unchanged script nat nat iterator_source
           [Return 1; Raise (BaseException 9); Return 3] [1]
           (BaseException 9) [Return 3] None [] 2).
  - eapply run_iterator; [reflexivity|reflexivity|].
    eapply yields_return; [reflexivity|].
    eapply yields_raise. reflexivity.
  - discriminate.
  - simpl. lia.
Defined.

(** C3, against the claim that every failure other than the source's
    exhaustion signal is re-raised as it is: for an asynchronous source the
    exhaustion signal is [StopAsyncIteration], so [StopIteration] raised by
    its advance is such a failure; the step still closes once, but the loop
    is ended by [StopAsyncIteration], not by the exception raised. *)
Lemma async_failure_is_not_reraised :
  source_run stop_raising_async_source [] [] StopIteration [] /\
  exhaustion stop_raising_async_source = StopAsyncIteration /\
  StopIteration <> exhaustion stop_raising_async_source /\
  exists self w0,
    __init__ (Some stop_raising_async_source) None [] = (Return self, w0) /\
    async_for 1 self (mkState w0 []) =
      Some ([], StopAsyncIteration, mkState [] [Close]) /\
    StopAsyncIteration <> StopIteration.
Proof.
  split; [|split; [|split]].
  - eapply run_asynchronous; [reflexivity|]. apply yields_raise. reflexivity.
  - reflexivity.
  - discriminate.
  - eexists _, _. split; [reflexivity|]. split; [reflexivity|discriminate].
Qed.

Lemma constructor_binds_by_priority_witness :
  __init__ (Some collection_source) (Some 2) [Return 1; Return 2] =
  (Return (mkTqdm (Some collection_source) (Some 2) false
             (Some (scripted_next StopIteration))
             (Some (mkIterator (scripted_next StopIteration)))),
   [Return 1; Return 2]).
Proof.
  exact (proj1 (proj2 (proj2
    (@constructor_binds_by_priority script nat nat collection_source (Some 2)
       [Return 1; Return 2]))) eq_refl eq_refl).
Defined.

Lemma send_passes_through_witness :
  send (mkTqdm (Some generator_source) None false
          (Some (scripted_next StopIteration)) None)
       5 (mkState [Return 1; Return 2] [Update]) =
  (Return 6, mkState [Return 2] [Update]).
Proof.
  exact (@send_passes_through script nat nat generator_source None
           [Return 1; Return 2] _ _ _ 5 [Return 1; Return 2] [Update]
           eq_refl eq_refl).
Defined.

(** ** Lists, selections and the index sort *)

Section Lists.

Context {X : Type}.

Lemma select_seq (pre suf : list X) :
  select (pre ++ suf) (seq (length pre) (length suf)) = suf.
Proof.
  revert pre. induction suf as [|x suf IH]; intros pre; [reflexivity|].
  simpl. rewrite nth_error_app2, Nat.sub_diag by lia. simpl. f_equal.
  specialize (IH (pre ++ [x])).
  rewrite <- app_assoc, length_app, Nat.add_1_r in IH. exact IH.
Qed.

Lemma select_fair (l : list X) ord :
  Permutation ord (seq 0 (length l)) -> Permutation (select l ord) l.
Proof.
  intros Hp. unfold select.
  rewrite (Permutation_flat_map _ Hp).
  change (Permutation (select ([] ++ l) (seq (length (@nil X)) (length l))) l).
  rewrite select_seq. reflexivity.
Qed.

Lemma select_app (l : list X) o1 o2 :
  select l (o1 ++ o2) = select l o1 ++ select l o2.
Proof. unfold select. apply flat_map_app. Qed.

Lemma select_map {Y : Type} (g : X -> Y) (l : list X) ord :
  select (map g l) ord = map g (select l ord).
Proof.
  induction ord as [|i ord IH]; [reflexivity|].
  simpl. rewrite nth_error_map, map_app, IH.
  destruct (nth_error l i); reflexivity.
Qed.

Lemma select_indices (l : list X) ord :
  (forall i, In i ord -> i < length l) ->
  Forall2 (fun x i => nth_error l i = Some x) (select l ord) ord.
Proof.
  induction ord as [|i ord IH]; intros Hin; [constructor|].
  simpl. destruct (nth_error l i) as [x|] eqn:E.
  - simpl. constructor; [exact E|]. apply IH. intros j Hj. apply Hin. now right.
  - apply nth_error_None in E. specialize (Hin i (or_introl eq_refl)). lia.
Qed.

End Lists.

Lemma fair_index sch n i : fair sch n -> In i (order sch) <-> i < n.
Proof.
  intros Hf. split; intros Hi.
  - apply (Permutation_in _ Hf) in Hi. apply in_seq in Hi. lia.
  - apply (Permutation_in _ (Permutation_sym Hf)). apply in_seq. lia.
Qed.

Lemma completed_fair {T : Type} (fs : list (future T)) sch :
  fair sch (length fs) -> Permutation (completed fs sch) fs.
Proof. intros Hf. apply select_fair. exact Hf. Qed.

Section IndexSort.

Context {T : Type} {ord_T : PyOrd T}.

Implicit Types (x y : nat * T) (l acc : list (nat * T)).

Lemma py_lt_distinct_index x y :
  fst x <> fst y -> py_lt x y = Return (Nat.ltb (fst x) (fst y)).
Proof.
  intros Hne. simpl. apply Nat.eqb_neq in Hne. rewrite Hne. reflexivity.
Qed.

(** With an index that is not yet present, the insertion of [sorted] never
    compares results. *)
Lemma insort_by_index x acc :
  ~ In (fst x) (map fst acc) -> insort x acc = Return (insert_by_index x acc).
Proof.
  induction acc as [|y acc IH]; intros Hnin; [reflexivity|].
  cbn [insort insert_by_index].
  rewrite py_lt_distinct_index by (intros E; apply Hnin; left; congruence).
  destruct (Nat.ltb (fst x) (fst y)); [reflexivity|].
  rewrite IH by (intros Hin; apply Hnin; right; exact Hin). reflexivity.
Qed.

Lemma insert_by_index_perm x l : Permutation (insert_by_index x l) (x :: l).
Proof.
  induction l as [|y l IH]; [reflexivity|].
  simpl. destruct (Nat.ltb (fst x) (fst y)); [reflexivity|].
  rewrite IH. apply perm_swap.
Qed.

Lemma fold_insert_perm l : forall acc,
  Permutation (fold_left (fun a x => insert_by_index x a) l acc) (acc ++ l).
Proof.
  induction l as [|x l IH]; intros acc; simpl.
  - rewrite app_nil_r. reflexivity.
  - rewrite IH, insert_by_index_perm. apply Permutation_middle.
Qed.

Lemma sort_into_by_index l : forall acc,
  NoDup (map fst (acc ++ l)) ->
  sort_into acc l = Return (fold_left (fun a x => insert_by_index x a) l acc).
Proof.
  induction l as [|x l IH]; intros acc Hnd; [reflexivity|].
  assert (Hp : Permutation (acc ++ x :: l) (x :: acc ++ l))
    by (symmetry; apply Permutation_middle).
  pose proof (Permutation_NoDup (Permutation_map fst Hp) Hnd) as Hnd'.
  simpl in Hnd'. inversion Hnd' as [|k ks Hnin Hnd'' Heq]; subst.
  cbn [sort_into fold_left].
  rewrite insort_by_index
    by (intros Hin; apply Hnin; rewrite map_app; apply in_or_app; now left).
  apply IH.
  refine (Permutation_NoDup _ Hnd').
  change (fst x :: map fst (acc ++ l)) with (map fst (x :: acc ++ l)).
  apply Permutation_map.
  rewrite (insert_by_index_perm x acc). reflexivity.
Qed.

(** On pairs with pairwise distinct indices, [sorted] succeeds and is the
    stable sort by index alone, whatever the comparison of results does. *)
Lemma sorted_by_index l :
  NoDup (map fst l) -> sorted l = Return (stable_sort_by_index l).
Proof. intros Hnd. apply (sort_into_by_index l []). exact Hnd. Qed.

Lemma insert_by_index_sorted x l :
  StronglySorted index_le l -> StronglySorted index_le (insert_by_index x l).
Proof.
  induction 1 as [|y l Hs IH Hall]; simpl.
  - constructor; constructor.
  - destruct (Nat.ltb (fst x) (fst y)) eqn:E.
    + apply Nat.ltb_lt in E. constructor; [constructor; assumption|].
      constructor; [unfold index_le; lia|].
      eapply Forall_impl; [|exact Hall]. unfold index_le. intros; lia.
    + apply Nat.ltb_ge in E. constructor; [exact IH|].
      apply (Permutation_Forall (Permutation_sym (insert_by_index_perm x l))).
      constructor; [exact E|exact Hall].
Qed.

Lemma fold_insert_sorted l : forall acc,
  StronglySorted index_le acc ->
  StronglySorted index_le (fold_left (fun a x => insert_by_index x a) l acc).
Proof.
  induction l as [|x l IH]; intros acc Hs; simpl; [exact Hs|].
  apply IH. apply insert_by_index_sorted. exact Hs.
Qed.

(** A list of pairs with distinct indices has one arrangement in index
    order. *)
Lemma index_sorted_unique l1 : forall l2,
  StronglySorted index_le l1 -> StronglySorted index_le l2 ->
  NoDup (map fst l1) -> Permutation l1 l2 -> l1 = l2.
Proof.
  induction l1 as [|a l1 IH]; intros l2 H1 H2 Hnd Hp.
  - apply Permutation_nil in Hp. now subst.
  - destruct l2 as [|b l2]; [apply Permutation_sym, Permutation_nil in Hp; discriminate|].
    inversion H1 as [|? ? Hs1 Ha]; subst. inversion H2 as [|? ? Hs2 Hb]; subst.
    simpl in Hnd. inversion Hnd as [|? ? Hnin Hnd1]; subst.
    assert (Hab : a = b).
    { assert (Hin : In a (b :: l2)) by (apply (Permutation_in _ Hp); now left).
      destruct Hin as [->|Hin]; [reflexivity|].
      assert (Hin' : In b (a :: l1))
        by (apply (Permutation_in _ (Permutation_sym Hp)); now left).
      destruct Hin' as [->|Hin']; [reflexivity|].
      rewrite Forall_forall in Ha, Hb.
      pose proof (Ha _ Hin') as L1. pose proof (Hb _ Hin) as L2.
      unfold index_le in L1, L2.
      exfalso. apply Hnin. replace (fst a) with (fst b) by lia.
      apply in_map. exact Hin'. }
    subst b. f_equal. apply IH; try assumption.
    eapply Permutation_cons_inv. exact Hp.
Qed.

Lemma combine_seq_sorted (rs : list T) : forall k n,
  StronglySorted index_le (combine (seq k n) rs).
Proof.
  induction rs as [|r rs IH]; intros k n.
  - destruct n; constructor.
  - destruct n as [|n]; [constructor|].
    simpl. constructor; [apply IH|].
    apply Forall_forall. intros [i r'] Hin.
    apply in_combine_l in Hin. apply in_seq in Hin.
    unfold index_le. simpl. lia.
Qed.

Lemma combine_seq_fst (rs : list T) : forall k,
  map fst (combine (seq k (length rs)) rs) = seq k (length rs).
Proof. induction rs as [|r rs IH]; intros k; simpl; [reflexivity|]. now rewrite IH. Qed.

Lemma combine_seq_snd (rs : list T) : forall k,
  map snd (combine (seq k (length rs)) rs) = rs.
Proof. induction rs as [|r rs IH]; intros k; simpl; [reflexivity|]. now rewrite IH. Qed.

(** Sorting any arrangement of the pairs (index, result) of [rs] by index
    gives them back in input order. *)
Lemma stable_sort_restores l (rs : list T) :
  Permutation l (combine (seq 0 (length rs)) rs) ->
  stable_sort_by_index l = combine (seq 0 (length rs)) rs.
Proof.
  intros Hp. unfold stable_sort_by_index.
  assert (Hnd : NoDup (map fst l)).
  { apply (Permutation_NoDup (Permutation_sym (Permutation_map fst Hp))).
    rewrite combine_seq_fst. apply seq_NoDup. }
  apply index_sorted_unique.
  - apply fold_insert_sorted. constructor.
  - apply combine_seq_sorted.
  - refine (Permutation_NoDup _ Hnd). apply Permutation_map.
    symmetry. apply (fold_insert_perm l []).
  - rewrite (fold_insert_perm l []). exact Hp.
Qed.

End IndexSort.

(** ** as_completed and gather *)

Section GeneratorFacts.

Context {T : Type}.

Implicit Types (fs : list (future T)) (sch : schedule) (lg : list event).

(** One synchronous step of the generator that [as_completed] returns. *)
Lemma as_completed_step fs loop timeout tot sch gen w :
  as_completed fs loop timeout tot sch = (Return gen, w) ->
  w = 0 /\
  total gen = Some (match tot with None => length fs | Some t => t end) /\
  forall k lg,
    std_next gen (mkState k lg) =
    match nth_error (completed fs sch) k with
    | Some f => (Return (deliver timeout sch k f), mkState (S k) (lg ++ [Update]))
    | None => (Raise StopIteration, mkState k (lg ++ [Close]))
    end.
Proof.
  unfold as_completed, __init__. simpl. intros [= <- <-].
  split; [reflexivity|]. split; [destruct tot; reflexivity|].
  intros k lg. unfold std_next, pull, asyncio_next. simpl.
  destruct (nth_error (completed fs sch) k); reflexivity.
Qed.

Lemma as_completed_returns fs loop timeout tot sch :
  exists gen, as_completed fs loop timeout tot sch = (Return gen, 0).
Proof. unfold as_completed, __init__. simpl. eexists. reflexivity. Qed.

Lemma nth_error_middle {X : Type} (pre : list X) x rest :
  nth_error (pre ++ x :: rest) (length pre) = Some x.
Proof. rewrite nth_error_app2, Nat.sub_diag by lia. reflexivity. Qed.

Lemma nth_error_end {X : Type} (pre : list X) :
  nth_error (pre ++ []) (length pre) = None.
Proof. apply nth_error_None. rewrite app_nil_r. lia. Qed.

(** The collection loop of gather, over the items not yet handed out. *)
Lemma await_each_collect (items : list (future T)) loop timeout tot sch
      (gen : tqdm_asyncio nat unit (future T)) w rest :
  as_completed items loop timeout tot sch = (Return gen, w) ->
  forall pre fuel lg,
    completed items sch = pre ++ rest ->
    length rest < fuel ->
    await_each fuel gen (mkState (length pre) lg) =
    Some (collect timeout sch (length pre) rest lg).
Proof.
  intros Hgen. destruct (as_completed_step Hgen) as (_ & _ & Hstep).
  induction rest as [|f rest IH]; intros pre fuel lg Hc Hfuel;
    (destruct fuel as [|fuel]; [simpl in Hfuel; lia|]);
    cbn [await_each]; rewrite Hstep, Hc.
  - rewrite nth_error_end. reflexivity.
  - rewrite nth_error_middle. cbn [collect].
    destruct (await (deliver timeout sch (length pre) f)) as [r|e]; [|reflexivity].
    specialize (IH (pre ++ [f]) fuel (lg ++ [Update])).
    rewrite length_app, Nat.add_1_r, <- app_assoc in IH.
    rewrite IH; [|exact Hc|simpl in Hfuel; lia].
    destruct (collect timeout sch (S (length pre)) rest (lg ++ [Update])) as [[rs|e] st];
      reflexivity.
Qed.

(** Draining the generator of [as_completed]. *)
Lemma drain_delivers fs loop timeout tot sch
      (gen : tqdm_asyncio nat unit (future T)) w rest :
  as_completed fs loop timeout tot sch = (Return gen, w) ->
  forall pre fuel lg,
    completed fs sch = pre ++ rest ->
    length rest < fuel ->
    drain fuel gen (mkState (length pre) lg) =
    Some (deliver_from timeout sch (length pre) rest, StopIteration,
          mkState (length pre + length rest)
                  (lg ++ repeat Update (length rest) ++ [Close])).
Proof.
  intros Hgen. destruct (as_completed_step Hgen) as (_ & _ & Hstep).
  induction rest as [|f rest IH]; intros pre fuel lg Hc Hfuel;
    (destruct fuel as [|fuel]; [simpl in Hfuel; lia|]);
    cbn [drain]; rewrite Hstep, Hc.
  - rewrite nth_error_end. simpl. now rewrite Nat.add_0_r.
  - rewrite nth_error_middle.
    specialize (IH (pre ++ [f]) fuel (lg ++ [Update])).
    rewrite length_app, Nat.add_1_r, <- app_assoc in IH.
    rewrite IH; [|exact Hc|simpl in Hfuel; lia].
    cbn [deliver_from length repeat]. rewrite <- app_assoc. simpl.
    do 3 f_equal. lia.
Qed.

Lemma deliver_from_no_expiry timeout sch (items : list (future T)) : forall k,
  (forall j, k <= j < k + length items -> expired timeout sch j = false) ->
  deliver_from timeout sch k items = items.
Proof.
  induction items as [|f items IH]; intros k Hk; [reflexivity|].
  simpl. unfold deliver. rewrite Hk by (simpl; lia). f_equal.
  apply IH. intros j Hj. apply Hk. simpl. lia.
Qed.

(** The loop over operations that all succeed collects every result. *)
Lemma collect_all timeout sch (ps : list T) : forall k lg,
  (forall j, k <= j < k + length ps -> expired timeout sch j = false) ->
  collect timeout sch k (succeeding ps) lg =
  (Return ps, mkState (k + length ps) (lg ++ repeat Update (length ps) ++ [Close])).
Proof.
  induction ps as [|p ps IH]; intros k lg Hk.
  - simpl. now rewrite Nat.add_0_r.
  - cbn [succeeding map collect]. unfold deliver. rewrite Hk by (simpl; lia).
    cbn [await]. fold (succeeding ps).
    rewrite IH by (intros j Hj; apply Hk; simpl; lia).
    cbn [length repeat]. rewrite <- app_assoc. simpl. do 3 f_equal. lia.
Qed.

(** The loop stops at the first operation, in completion order, that
    fails. *)
Lemma collect_first_failure timeout sch (ps : list T) e rest : forall k lg,
  (forall j, k <= j <= k + length ps -> expired timeout sch j = false) ->
  collect timeout sch k (succeeding ps ++ Settled (Raise e) :: rest) lg =
  (Raise e, mkState (S (k + length ps)) (lg ++ repeat Update (S (length ps)))).
Proof.
  induction ps as [|p ps IH]; intros k lg Hk.
  - cbn [succeeding map app collect]. unfold deliver. rewrite Hk by (simpl; lia).
    simpl. now rewrite Nat.add_0_r.
  - cbn [succeeding map app collect]. unfold deliver. rewrite Hk by (simpl; lia).
    cbn [await]. fold (succeeding ps).
    rewrite IH by (intros j Hj; apply Hk; simpl; lia).
    cbn [length repeat]. rewrite <- app_assoc. simpl. do 3 f_equal. lia.
Qed.

End GeneratorFacts.

Section GatherCollect.

Context {T : Type}.

Implicit Types (fs : list (future T)) (sch : schedule) (lg : list event).

Lemma comprehension_numbered (pre suf : list (future T)) :
  comprehension (fun idx => match getitem (pre ++ suf) idx with
                            | Return f => Return (wrap_awaitable idx f)
                            | Raise e => Raise e
                            end) (seq (length pre) (length suf)) =
  Return (numbered_from (length pre) suf).
Proof.
  revert pre. induction suf as [|f suf IH]; intros pre; [reflexivity|].
  cbn [length seq comprehension numbered_from]. unfold getitem at 1.
  rewrite nth_error_app2, Nat.sub_diag by lia. cbn [nth_error].
  specialize (IH (pre ++ [f])).
  rewrite <- app_assoc, length_app, Nat.add_1_r in IH. simpl app in IH.
  rewrite IH. reflexivity.
Qed.

Lemma numbered_length fs : forall k, length (numbered_from k fs) = length fs.
Proof. induction fs as [|f fs IH]; intros k; simpl; [reflexivity|]. now rewrite IH. Qed.

Lemma nth_error_numbered fs : forall k j,
  nth_error (numbered_from k fs) j = option_map (wrap_awaitable (k + j)) (nth_error fs j).
Proof.
  induction fs as [|f fs IH]; intros k j.
  - destruct j; reflexivity.
  - destruct j as [|j]; simpl.
    + now rewrite Nat.add_0_r.
    + rewrite IH. now rewrite Nat.add_succ_r.
Qed.

Lemma numbered_succeeding (rs : list T) : forall k,
  numbered_from k (succeeding rs) =
  succeeding (combine (seq k (length rs)) rs).
Proof. induction rs as [|r rs IH]; intros k; simpl; [reflexivity|]. now rewrite IH. Qed.

(** gather's collection phase is the loop over the tagged operations in
    completion order, whenever the scheduler hands out no more items than
    there are operations. *)
Lemma gather_collect_eq fs loop timeout tot sch :
  length (completed (numbered_from 0 fs) sch) <= length fs ->
  gather_collect fs loop timeout tot sch =
  Some (collect timeout sch 0 (completed (numbered_from 0 fs) sch) []).
Proof.
  intros Hlen. unfold gather_collect.
  pose proof (comprehension_numbered [] fs) as Hnum. simpl in Hnum.
  rewrite Hnum.
  destruct (as_completed_returns (numbered_from 0 fs) loop timeout
              (Some (match tot with None => length fs | Some t => t end)) sch)
    as [gen Hgen].
  replace (match tot with None => Some (length fs) | Some t => Some t end)
    with (Some (match tot with None => length fs | Some t => t end))
    by (destruct tot; reflexivity).
  rewrite Hgen.
  eapply await_each_collect with (pre := []); [exact Hgen|reflexivity|].
  rewrite numbered_length. lia.
Qed.

End GatherCollect.

Section GatherRuns.

Context {T : Type}.

Implicit Types (fs : list (future T)) (rs : list T) (sch : schedule).

Lemma select_nil {X : Type} ord : select (@nil X) ord = [].
Proof.
  induction ord as [|i ord IH]; [reflexivity|].
  simpl. rewrite IH. destruct i; reflexivity.
Qed.

Lemma completed_numbered_length fs sch :
  fair sch (length fs) ->
  length (completed (numbered_from 0 fs) sch) = length fs.
Proof.
  intros Hf. rewrite <- (numbered_length fs 0). apply Permutation_length.
  apply completed_fair. rewrite numbered_length. exact Hf.
Qed.

Lemma select_pairs rs sch :
  fair sch (length rs) ->
  Permutation (select (combine (seq 0 (length rs)) rs) (order sch))
              (combine (seq 0 (length rs)) rs).
Proof.
  intros Hf. apply select_fair.
  rewrite length_combine, length_seq, Nat.min_id. exact Hf.
Qed.

(** When every operation succeeds, the collection phase of gather ends with
    the pairs (index, result) in completion order, after one update per
    operation and one close. *)
Lemma gather_collect_succeeding rs loop timeout tot sch :
  fair sch (length rs) ->
  no_expiry timeout sch (length rs) ->
  gather_collect (succeeding rs) loop timeout tot sch =
  Some (Return (select (combine (seq 0 (length rs)) rs) (order sch)),
        mkState (length rs) (repeat Update (length rs) ++ [Close])).
Proof.
  intros Hf Hne.
  assert (Hlen : length (succeeding rs) = length rs) by apply length_map.
  assert (Hsel : length (select (combine (seq 0 (length rs)) rs) (order sch)) = length rs).
  { rewrite (Permutation_length (@select_pairs rs sch Hf)).
    now rewrite length_combine, length_seq, Nat.min_id. }
  rewrite gather_collect_eq
    by (rewrite completed_numbered_length; rewrite Hlen; [lia|exact Hf]).
  rewrite numbered_succeeding. unfold completed, succeeding at 1.
  rewrite select_map. fold (succeeding (select (combine (seq 0 (length rs)) rs) (order sch))).
  rewrite collect_all by (intros j Hj; apply Hne; lia).
  rewrite Hsel. reflexivity.
Qed.

Lemma select_numbered_succeeding fs pre :
  (forall j, In j pre -> exists r, nth_error fs j = Some (Settled (Return r))) ->
  exists ps, select (numbered_from 0 fs) pre = succeeding ps /\ length ps = length pre.
Proof.
  induction pre as [|j pre IH]; intros Hall.
  - exists []. split; reflexivity.
  - destruct (Hall j (or_introl eq_refl)) as [r Hr].
    destruct IH as (ps & Hps & Hl); [intros k Hk; apply Hall; now right|].
    exists ((j, r) :: ps). split; [|simpl; now rewrite Hl].
    simpl. rewrite nth_error_numbered, Hr, Hps. reflexivity.
Qed.

(** When the operation at index [i] fails with [e] and every operation that
    completes before it succeeds, the collection phase of gather raises [e]
    when it awaits the wrapper of [i]; the operations that complete later
    are not reached. *)
Lemma gather_collect_first_failure fs loop timeout tot sch pre i post e :
  fair sch (length fs) ->
  no_expiry timeout sch (length fs) ->
  order sch = pre ++ i :: post ->
  nth_error fs i = Some (Settled (Raise e)) ->
  (forall j, In j pre -> exists r, nth_error fs j = Some (Settled (Return r))) ->
  gather_collect fs loop timeout tot sch =
  Some (Raise e, mkState (S (length pre)) (repeat Update (S (length pre)))).
Proof.
  intros Hf Hne Hord Hi Hpre.
  rewrite gather_collect_eq by (rewrite completed_numbered_length; [lia|exact Hf]).
  destruct (select_numbered_succeeding fs pre Hpre) as (ps & Hps & Hl).
  assert (Hlt : length pre < length fs).
  { pose proof (Permutation_length Hf) as Hlen.
    rewrite Hord, length_app, length_seq in Hlen. simpl in Hlen. lia. }
  unfold completed. rewrite Hord, select_app, Hps. simpl select.
  rewrite nth_error_numbered, Hi. simpl.
  change (wrap_awaitable i (Settled (@Raise T e))) with (Settled (@Raise (nat * T) e)).
  rewrite collect_first_failure by (intros j Hj; apply Hne; lia).
  rewrite Hl. reflexivity.
Qed.

(** Among operations of which one fails, some failing operation is the first
    to complete. *)
Lemma first_failure fs ord :
  (forall j, In j ord -> j < length fs) ->
  (exists i e, In i ord /\ nth_error fs i = Some (Settled (Raise e))) ->
  exists pre i post e,
    ord = pre ++ i :: post /\
    nth_error fs i = Some (Settled (Raise e)) /\
    (forall j, In j pre -> exists r, nth_error fs j = Some (Settled (Return r))).
Proof.
  induction ord as [|a ord IH]; intros Hval (i & e & Hin & Hi); [contradiction|].
  destruct (nth_error fs a) as [[[r|e']]|] eqn:Ea.
  - assert (Hin' : In i ord).
    { destruct Hin as [->|Hin]; [congruence|exact Hin]. }
    destruct IH as (pre & i' & post & e' & Hord & Hi' & Hpre).
    + intros j Hj. apply Hval. now right.
    + exists i, e. split; assumption.
    + exists (a :: pre), i', post, e'. split; [simpl; now rewrite Hord|].
      split; [exact Hi'|].
      intros j [<-|Hj]; [exists r; exact Ea|apply Hpre; exact Hj].
  - exists [], a, ord, e'. split; [reflexivity|]. split; [exact Ea|].
    intros j [].
  - apply nth_error_None in Ea. specialize (Hval a (or_introl eq_refl)). lia.
Qed.

End GatherRuns.

Section GatherClaims.

Context {T : Type} {ord_T : PyOrd T}.

Implicit Types (fs : list (future T)) (rs : list T) (sch : schedule).

(** C4.  For operations that all succeed, with results [rs], gather returns
    exactly [rs], in input order, for every completion order the scheduler
    may choose (every permutation of the indices), provided no deadline
    expires; the display receives one update per operation, then one
    close. *)
Theorem gather_restores_input_order rs loop timeout tot sch :
  fair sch (length rs) ->
  no_expiry timeout sch (length rs) ->
  gather (succeeding rs) loop timeout tot sch =
  Some (Return rs, mkState (length rs) (repeat Update (length rs) ++ [Close])).
Proof.
  intros Hf Hne. unfold gather.
  rewrite (@gather_collect_succeeding T rs loop timeout tot sch Hf Hne).
  pose proof (@select_pairs T rs sch Hf) as Hp.
  rewrite sorted_by_index.
  - erewrite stable_sort_restores by exact Hp.
    rewrite combine_seq_snd. reflexivity.
  - apply (Permutation_NoDup (Permutation_sym (Permutation_map fst Hp))).
    rewrite combine_seq_fst. apply seq_NoDup.
Qed.

Lemma deliver_from_length timeout sch (items : list (future T)) : forall k,
  length (deliver_from timeout sch k items) = length items.
Proof. induction items as [|f items IH]; intros k; simpl; [reflexivity|]. now rewrite IH. Qed.

(** C5.  Over [N] input operations, each completed once by the scheduler,
    the sequence of as_completed has exactly [N] items and makes exactly [N]
    updates (then one close, when found exhausted), whatever total is
    supplied; the total of the proxy is the supplied one, or [N] when none
    is.  When no deadline expires the items are the input operations in
    completion order: the item at each position is the operation whose index
    the completion order has there, so they are the inputs, each once. *)
Theorem as_completed_yields_each_once fs loop timeout tot sch :
  fair sch (length fs) ->
  exists gen items,
    as_completed fs loop timeout tot sch = (Return gen, 0) /\
    total gen = Some (match tot with None => length fs | Some t => t end) /\
    drain (S (length fs)) gen (mkState 0 []) =
      Some (items, StopIteration,
            mkState (length fs) (repeat Update (length fs) ++ [Close])) /\
    length items = length fs /\
    (no_expiry timeout sch (length fs) ->
       items = completed fs sch /\
       Permutation items fs /\
       Forall2 (fun item i => nth_error fs i = Some item) items (order sch)).
Proof.
  intros Hf.
  destruct (as_completed_returns fs loop timeout tot sch) as [gen Hgen].
  pose proof (Permutation_length (@completed_fair T fs sch Hf)) as Hlen.
  exists gen, (deliver_from timeout sch 0 (completed fs sch)).
  split; [exact Hgen|]. split; [exact (proj1 (proj2 (as_completed_step Hgen)))|].
  split; [|split].
  - pose proof (@drain_delivers T fs loop timeout tot sch gen 0 (completed fs sch)
                  Hgen [] (S (length fs)) []) as Hd.
    cbn [length app Nat.add] in Hd. rewrite Hd; [|reflexivity|lia].
    rewrite Hlen. reflexivity.
  - rewrite deliver_from_length. exact Hlen.
  - intros Hne.
    rewrite deliver_from_no_expiry by (intros j Hj; apply Hne; lia).
    split; [reflexivity|]. split; [apply (@completed_fair T fs sch Hf)|].
    apply select_indices. intros i Hi.
    apply (proj1 (@fair_index sch (length fs) i Hf)). exact Hi.
Qed.


(** C8.  On an empty input gather returns the empty list and raises
    nothing; the only call on the display is the close at exhaustion, so no
    update is made. *)
Theorem gather_empty loop timeout tot sch :
  gather (@nil (future T)) loop timeout tot sch = Some (Return [], mkState 0 [Close]) /\
  calls Update (log (mkState 0 [Close])) = 0.
Proof.
  split; [|reflexivity].
  unfold gather. rewrite gather_collect_eq.
  - unfold completed. simpl numbered_from. rewrite select_nil. reflexivity.
  - unfold completed. simpl numbered_from. rewrite select_nil. simpl. lia.
Qed.

(** C10.  When every operation succeeds, the pairs that gather collects have
    the indices [0 .. N-1], each once.  On these pairs the lexicographic
    [sorted] of the code returns what the stable sort by index alone
    returns, for every behaviour of [==] and [<] on results, also when
    results do not compare at all; gather's result is the projection of that
    sort. *)
Theorem index_sort_never_compares_results rs loop timeout tot sch :
  fair sch (length rs) ->
  no_expiry timeout sch (length rs) ->
  exists pairs st,
    gather_collect (succeeding rs) loop timeout tot sch = Some (Return pairs, st) /\
    Permutation (map fst pairs) (seq 0 (length rs)) /\
    NoDup (map fst pairs) /\
    sorted pairs = Return (stable_sort_by_index pairs) /\
    @sorted (nat * T) (@PyOrd_tuple nat T PyOrd_int (PyOrd_incomparable T)) pairs =
      Return (stable_sort_by_index pairs) /\
    gather (succeeding rs) loop timeout tot sch =
      Some (Return (map snd (stable_sort_by_index pairs)), st).
Proof.
  intros Hf Hne.
  pose proof (@gather_collect_succeeding T rs loop timeout tot sch Hf Hne) as Hc.
  pose proof (@select_pairs T rs sch Hf) as Hp.
  assert (Hfst : Permutation
                   (map fst (select (combine (seq 0 (length rs)) rs) (order sch)))
                   (seq 0 (length rs))).
  { rewrite (Permutation_map fst Hp), combine_seq_fst. reflexivity. }
  assert (Hnd : NoDup (map fst (select (combine (seq 0 (length rs)) rs) (order sch)))).
  { apply (Permutation_NoDup (Permutation_sym Hfst)). apply seq_NoDup. }
  eexists _, _. split; [exact Hc|]. split; [exact Hfst|]. split; [exact Hnd|].
  split; [apply sorted_by_index; exact Hnd|].
  split; [apply sorted_by_index; exact Hnd|].
  unfold gather. rewrite Hc, sorted_by_index by exact Hnd. reflexivity.
Qed.

End GatherClaims.

(** Instances on three operations that complete in the order last, first,
    second. *)

Lemma fair_rotation n : fair (mkSchedule [2; 0; 1] n) 3.
Proof.
  unfold fair. simpl.
  apply perm_trans with [0; 2; 1]; [apply perm_swap|].
  apply perm_skip. apply perm_swap.
Qed.

Lemma no_expiry_in_time timeout ord n : no_expiry timeout (mkSchedule ord n) n.
Proof.
  intros k Hk. unfold expired. simpl.
  destruct timeout; [apply Nat.leb_gt; exact Hk|reflexivity].
Qed.

Lemma gather_restores_input_order_witness :
  gather (succeeding [10; 20; 30]) None None None (mkSchedule [2; 0; 1] 3) =
  Some (Return [10; 20; 30], mkState 3 (repeat Update 3 ++ [Close])).
Proof.
  exact (@gather_restores_input_order nat PyOrd_int [10; 20; 30] None None None
           (mkSchedule [2; 0; 1] 3) (fair_rotation 3)
           (@no_expiry_in_time None [2; 0; 1] 3)).
Defined.

Lemma as_completed_yields_each_once_witness :
  exists gen items,
    as_completed [Settled (Return 10); Settled (Raise (BaseException 1));
                  Settled (Return 30)]
                 None (Some 5) (Some 7) (mkSchedule [2; 0; 1] 3) = (Return gen, 0) /\
    total gen = Some 7 /\
    drain 4 gen (mkState 0 []) =
      Some (items, StopIteration, mkState 3 (repeat Update 3 ++ [Close])) /\
    length items = 3 /\
    (no_expiry (Some 5) (mkSchedule [2; 0; 1] 3) 3 ->
       items = [Settled (Return 30); Settled (Return 10);
                Settled (Raise (BaseException 1))] /\
       Permutation items [Settled (Return 10); Settled (Raise (BaseException 1));
                          Settled (Return 30)] /\
       Forall2 (fun item i =>
                  nth_error [Settled (Return 10); Settled (Raise (BaseException 1));
                             Settled (Return 30)] i = Some item)
               items [2; 0; 1]).
Proof.
  exact (@as_completed_yields_each_once nat
           [Settled (Return 10); Settled (Raise (BaseException 1)); Settled (Return 30)]
           None (Some 5) (Some 7) (mkSchedule [2; 0; 1] 3) (fair_rotation 3)).
Defined.


Lemma index_sort_never_compares_results_witness :
  exists pairs st,
    gather_collect (succeeding [10; 20; 30]) None None None (mkSchedule [2; 0; 1] 3) =
      Some (Return pairs, st) /\
    Permutation (map fst pairs) [0; 1; 2] /\
    NoDup (map fst pairs) /\
    @sorted (nat * nat) (@PyOrd_tuple nat nat PyOrd_int (PyOrd_incomparable nat)) pairs =
      Return (stable_sort_by_index pairs) /\
    @sorted (nat * nat) (@PyOrd_tuple nat nat PyOrd_int (PyOrd_incomparable nat)) pairs =
      Return (stable_sort_by_index pairs) /\
    @gather nat (PyOrd_incomparable nat) (succeeding [10; 20; 30]) None None None
            (mkSchedule [2; 0; 1] 3) =
      Some (Return (map snd (stable_sort_by_index pairs)), st).
Proof.
  exact (@index_sort_never_compares_results nat (PyOrd_incomparable nat)
           [10; 20; 30] None None None (mkSchedule [2; 0; 1] 3) (fair_rotation 3)
           (@no_expiry_in_time None [2; 0; 1] 3)).
Defined.

(** The example of the spec, evaluated: results in input order for the
    completion order last, first, second, also when results do not
    compare. *)
Example gather_three_incomparable :
  @gather nat (PyOrd_incomparable nat) (succeeding [10; 20; 30]) None None None
          (mkSchedule [2; 0; 1] 3) =
  Some (Return [10; 20; 30], mkState 3 [Update; Update; Update; Close]).
Proof. reflexivity. Qed.

(** With two indices equal, the lexicographic sort does compare results. *)
Example sorted_compares_results_on_equal_indices :
  @sorted (nat * nat) (@PyOrd_tuple nat nat PyOrd_int (PyOrd_incomparable nat))
          [(0, 7); (0, 3)] = Raise TypeError.
Proof. reflexivity. Qed.

(** ** Further properties of the proxy *)

Section ProxyExtras.

Context {W V A : Type}.

Implicit Types (self : tqdm_asyncio W V A) (st : state W) (s : source W V A).

(** Every drive that ends, over any proxy and any source, reflects a run of
    the bound advance: the elements produced are the ones the advance
    returned, in order, the world is left where the advance that raised
    left it, the loop is ended by the translation of what the advance
    raised, and the display received one update per element and then one
    close. *)
Theorem drive_reflects_source fuel : forall self st xs e st',
  async_for fuel self st = Some (xs, e, st') ->
  exists e0,
    yields (bound_advance self) (world st) xs e0 (world st') /\
    e = translate e0 /\
    log st' = log st ++ repeat Update (length xs) ++ [Close].
Proof.
  induction fuel as [|fuel IH]; intros self st xs e st' Hrun; [discriminate|].
  simpl in Hrun. rewrite anext_bound in Hrun.
  destruct (bound_advance self (world st)) as [[x|e0] w1] eqn:Hadv.
  - destruct (async_for fuel self (update (set_world st w1)))
      as [[[xs' e'] st'']|] eqn:Hrest; [|discriminate].
    injection Hrun as <- <- <-.
    destruct (IH _ _ _ _ _ Hrest) as (e0 & Hy & He & Hlog).
    exists e0. split; [|split].
    + eapply yields_return; [exact Hadv|exact Hy].
    + exact He.
    + rewrite Hlog. simpl. rewrite <- app_assoc. reflexivity.
  - injection Hrun as <- <- <-.
    exists e0. split; [|split].
    + apply yields_raise. exact Hadv.
    + reflexivity.
    + reflexivity.
Qed.

(** An iteration step never raises [StopIteration], whatever the source
    does. *)
Theorem anext_never_raises_StopIteration self st :
  is_stop_iteration (fst (__anext__ self st)) = false.
Proof.
  rewrite anext_bound.
  destruct (bound_advance self (world st)) as [[x|e] w1]; [reflexivity|].
  destruct e; reflexivity.
Qed.

(** [send] makes no call on the display, whether the source's [send]
    returns, raises or is missing. *)
Theorem send_never_touches_display self (v : V) st :
  log (snd (send self v st)) = log st.
Proof.
  unfold send. destruct (iterable self) as [s|]; [|reflexivity].
  destruct (src_send s) as [f|]; [|reflexivity].
  destruct (f v (world st)); reflexivity.
Qed.

(** A proxy built without a source has no advance bound and nothing to send
    to: the constructor succeeds without touching the world, every
    iteration step on the proxy raises [AttributeError] after one close, and
    [send] raises [AttributeError] and changes nothing. *)
Theorem proxy_without_source tot (w : W) :
  exists self,
    __init__ (@None (source W V A)) tot w = (Return self, w) /\
    (forall st, __anext__ self st = (Raise AttributeError, close st)) /\
    (forall (v : V) st, send self v st = (Raise AttributeError, st)).
Proof. eexists. split; [|split]; reflexivity. Qed.

(** The proxy is its own asynchronous iterator, so a second loop over it
    does not start again: after a drive that ended, if the bound advance
    raises once more, the second drive produces nothing and makes a second
    close call. *)
Theorem second_drive_does_not_restart fuel self st xs e st' fuel' e2 w2 :
  async_for fuel self st = Some (xs, e, st') ->
  bound_advance self (world st') = (Raise e2, w2) ->
  async_for (S fuel') (__aiter__ self) st' =
  Some ([], translate e2,
        mkState w2 (log st ++ repeat Update (length xs) ++ [Close; Close])).
Proof.
  intros Hrun Hadv.
  destruct (drive_reflects_source _ _ _ Hrun) as (e0 & _ & _ & Hlog).
  unfold __aiter__. simpl. rewrite anext_bound, Hadv.
  unfold close, set_world. simpl. rewrite Hlog.
  rewrite <- !app_assoc. reflexivity.
Qed.

(** The translation of [StopIteration] covers the asynchronous binding too:
    when the asynchronous advance of a source raises [StopIteration], the
    step closes and raises [StopAsyncIteration]. *)
Theorem async_StopIteration_is_translated s m tot w w1 lg :
  src_anext s = Some m ->
  advance_async m w = (Raise StopIteration, w1) ->
  exists self,
    __init__ (Some s) tot w = (Return self, w) /\
    __anext__ self (mkState w lg) =
    (Raise StopAsyncIteration, mkState w1 (lg ++ [Close])).
Proof.
  intros Ha Hadv. unfold __init__. rewrite Ha.
  eexists. split; [reflexivity|].
  rewrite anext_bound. unfold bound_advance. cbn [iterable_awaitable iterable_next world].
  rewrite Hadv. reflexivity.
Qed.

End ProxyExtras.

Lemma drive_reflects_source_witness :
  exists e0,
    yields (bound_advance
              (mkTqdm (Some iterator_source) None false
                      (Some (scripted_next StopIteration)) None))
           (world (mkState [Return 1] [])) [1] e0
           (world (mkState (@nil (outcome nat)) [Update; Close])) /\
    StopAsyncIteration = translate e0 /\
    log (mkState (@nil (outcome nat)) [Update; Close]) =
    log (mkState [Return 1] []) ++ repeat Update (length [1]) ++ [Close].
Proof.
  exact (@drive_reflects_source script nat nat 3
           (mkTqdm (Some iterator_source) None false
                   (Some (scripted_next StopIteration)) None)
           (mkState [Return 1] []) [1] StopAsyncIteration
           (mkState [] [Update; Close]) eq_refl).
Defined.

Lemma second_drive_does_not_restart_witness :
  async_for 1
    (__aiter__ (mkTqdm (Some iterator_source) None false
                       (Some (scripted_next StopIteration)) None))
    (mkState [] [Update; Close]) =
  Some ([], translate StopIteration,
        mkState [] (log (mkState [Return 1] []) ++
                    repeat Update (length [1]) ++ [Close; Close])).
Proof.
  exact (@second_drive_does_not_restart script nat nat 3
           (mkTqdm (Some iterator_source) None false
                   (Some (scripted_next StopIteration)) None)
           (mkState [Return 1] []) [1] StopAsyncIteration
           (mkState [] [Update; Close]) 0 StopIteration [] eq_refl eq_refl).
Defined.

Lemma async_StopIteration_is_translated_witness :
  exists self,
    __init__ (Some (mkSource (V := nat) (A := nat)
                      (Some (fun w : script => (Raise StopIteration, w)))
                      None None None)) None [Return 1] =
      (Return self, [Return 1]) /\
    __anext__ self (mkState [Return 1] []) =
    (Raise StopAsyncIteration, mkState [Return 1] ([] ++ [Close])).
Proof.
  exact (@async_StopIteration_is_translated script nat nat
           (mkSource (V := nat) (A := nat)
                     (Some (fun w : script => (Raise StopIteration, w)))
                     None None None)
           (fun w : script => (Raise StopIteration, w))
           None [Return 1] [Return 1] [] eq_refl eq_refl).
Defined.

(** ** tarange *)

Lemma range_yields_from r : forall k i,
  i + k = range_len r ->
  yields (range_next r) i (map (range_item r) (seq i k)) StopIteration (range_len r).
Proof.
  induction k as [|k IH]; intros i Hik.
  - simpl. rewrite Nat.add_0_r in Hik. subst i.
    apply yields_raise. unfold range_next. rewrite Nat.ltb_irrefl. reflexivity.
  - simpl. eapply yields_return.
    + unfold range_next.
      replace (Nat.ltb i (range_len r)) with true
        by (symmetry; apply Nat.ltb_lt; lia).
      reflexivity.
    + apply IH. lia.
Qed.

Lemma tarange_drive args r tot w lg fuel :
  py_range args = Return r ->
  range_len r < fuel ->
  exists self,
    tarange args tot w = (Return self, 0) /\
    async_for fuel self (mkState 0 lg) =
    Some (range_elements r, StopAsyncIteration,
          mkState (range_len r) (lg ++ repeat Update (range_len r) ++ [Close])).
Proof.
  intros Hr Hfuel. unfold tarange. rewrite Hr.
  eexists. split; [reflexivity|].
  pose proof (range_yields_from r (range_len r) 0 eq_refl) as Hy.
  match goal with
  | |- async_for _ ?p _ = _ =>
    pose proof (@async_for_yields nat unit Z p _ _ _ _ Hy fuel lg) as Hrun
  end.
  rewrite length_map, length_seq in Hrun.
  exact (Hrun Hfuel).
Qed.

(** [async for i in tarange(n)] produces [0, 1, ..., n-1] in order, with one
    update per element and one close at the end; for [n] zero or negative it
    produces nothing and only closes. *)
Theorem tarange_counts_from_zero (n : Z) tot w lg fuel :
  Z.to_nat n < fuel ->
  exists self,
    tarange [n] tot w = (Return self, 0) /\
    async_for fuel self (mkState 0 lg) =
    Some (map Z.of_nat (seq 0 (Z.to_nat n)), StopAsyncIteration,
          mkState (Z.to_nat n) (lg ++ repeat Update (Z.to_nat n) ++ [Close])).
Proof.
  intros Hfuel.
  assert (Hlen : range_len (mkRange 0 n 1) = Z.to_nat n).
  { unfold range_len. simpl.
    destruct (Z.ltb_spec 0 n) as [Hn|Hn].
    - rewrite Z.div_1_r. f_equal. lia.
    - lia. }
  destruct (@tarange_drive [n] (mkRange 0 n 1) tot w lg fuel eq_refl) as (self & Hinit & Hrun).
  - rewrite Hlen. exact Hfuel.
  - exists self. split; [exact Hinit|].
    rewrite Hrun, Hlen. unfold range_elements. rewrite Hlen.
    do 3 f_equal. apply map_ext. intros i. unfold range_item. simpl. lia.
Qed.

Lemma range_item_in_bounds r i :
  range_step r <> 0%Z ->
  i < range_len r ->
  (0 < range_step r -> range_start r <= range_item r i < range_stop r)%Z /\
  (range_step r < 0 -> range_stop r < range_item r i <= range_start r)%Z.
Proof.
  destruct r as [start stop step]. unfold range_len, range_item. simpl.
  intros Hstep Hi. split; intros Hs.
  - replace (Z.ltb 0 step) with true in Hi by (symmetry; apply Z.ltb_lt; exact Hs).
    destruct (Z.ltb_spec start stop) as [Hlt|Hge]; [|simpl in Hi; lia].
    pose proof (Z.mul_div_le (stop - start - 1) step Hs) as Hd.
    assert (Hq : (0 <= (stop - start - 1) / step)%Z)
      by (apply Z.div_pos; lia).
    assert (Hi' : (Z.of_nat i <= (stop - start - 1) / step)%Z) by lia.
    nia.
  - replace (Z.ltb 0 step) with false in Hi by (symmetry; apply Z.ltb_ge; lia).
    destruct (Z.ltb_spec stop start) as [Hlt|Hge]; [|simpl in Hi; lia].
    assert (Hs' : (0 < - step)%Z) by lia.
    pose proof (Z.mul_div_le (start - stop - 1) (- step) Hs') as Hd.
    assert (Hq : (0 <= (start - stop - 1) / (- step))%Z)
      by (apply Z.div_pos; lia).
    assert (Hi' : (Z.of_nat i <= (start - stop - 1) / (- step))%Z) by lia.
    nia.
Qed.

(** [async for i in tarange(start, stop, step)] with a step other than zero
    produces [start, start + step, start + 2 step, ...], every element on
    the side of [stop] where [start] is ([start <= x < stop] for a positive
    step, [stop < x <= start] for a negative one), with one update per
    element and then one close. *)
Theorem tarange_steps_within_bounds start stop step tot w lg fuel :
  step <> 0%Z ->
  range_len (mkRange start stop step) < fuel ->
  exists self,
    tarange [start; stop; step] tot w = (Return self, 0) /\
    async_for fuel self (mkState 0 lg) =
    Some (map (fun i => (start + Z.of_nat i * step)%Z)
              (seq 0 (range_len (mkRange start stop step))),
          StopAsyncIteration,
          mkState (range_len (mkRange start stop step))
                  (lg ++ repeat Update (range_len (mkRange start stop step)) ++ [Close])) /\
    forall x,
      In x (map (fun i => (start + Z.of_nat i * step)%Z)
                (seq 0 (range_len (mkRange start stop step)))) ->
      ((0 < step -> start <= x < stop) /\ (step < 0 -> stop < x <= start))%Z.
Proof.
  intros Hstep Hfuel.
  assert (Hr : py_range [start; stop; step] = Return (mkRange start stop step)).
  { unfold py_range. replace (Z.eqb step 0) with false; [reflexivity|].
    symmetry. apply Z.eqb_neq. exact Hstep. }
  destruct (@tarange_drive _ _ tot w lg fuel Hr Hfuel) as (self & Hinit & Hrun).
  exists self. split; [exact Hinit|]. split; [exact Hrun|].
  intros x Hin. apply in_map_iff in Hin. destruct Hin as (i & <- & Hi).
  apply in_seq in Hi.
  apply (@range_item_in_bounds (mkRange start stop step) i Hstep). lia.
Qed.

Lemma tarange_counts_from_zero_witness :
  exists self,
    tarange [3%Z] None 0 = (Return self, 0) /\
    async_for 4 self (mkState 0 []) =
    Some (map Z.of_nat (seq 0 (Z.to_nat 3)), StopAsyncIteration,
          mkState (Z.to_nat 3) ([] ++ repeat Update (Z.to_nat 3) ++ [Close])).
Proof.
  apply (@tarange_counts_from_zero 3%Z None 0 [] 4).
  vm_compute. lia.
Defined.

Lemma tarange_steps_within_bounds_witness :
  exists self,
    tarange [10; 3; -3]%Z None 0 = (Return self, 0) /\
    async_for 4 self (mkState 0 []) =
    Some (map (fun i => (10 + Z.of_nat i * -3)%Z)
              (seq 0 (range_len (mkRange 10 3 (-3)))),
          StopAsyncIteration,
          mkState (range_len (mkRange 10 3 (-3)))
                  ([] ++ repeat Update (range_len (mkRange 10 3 (-3))) ++ [Close])) /\
    forall x,
      In x (map (fun i => (10 + Z.of_nat i * -3)%Z)
                (seq 0 (range_len (mkRange 10 3 (-3))))) ->
      ((0 < -3 -> 10 <= x < 3) /\ (-3 < 0 -> 3 < x <= 10))%Z.
Proof.
  apply (@tarange_steps_within_bounds 10 3 (-3) None 0 [] 4)%Z.
  - discriminate.
  - vm_compute. lia.
Defined.

(** The ranges of the witnesses, evaluated. *)
Example range_elements_down : range_elements (mkRange 10 3 (-3)) = [10; 7; 4]%Z.
Proof. reflexivity. Qed.

Example range_elements_up : range_elements (mkRange 1 8 3) = [1; 4; 7]%Z.
Proof. reflexivity. Qed.

(** ** Further properties of gather *)

Section GatherExtras.

Context {T : Type} {ord_T : PyOrd T}.

Implicit Types (fs : list (future T)) (rs : list T) (sch : schedule).

Lemma await_each_ext {X : Type} (g1 g2 : tqdm_asyncio nat unit (future X)) :
  (forall st, std_next g1 st = std_next g2 st) ->
  forall fuel st, await_each fuel g1 st = await_each fuel g2 st.
Proof.
  intros Hstep. induction fuel as [|fuel IH]; intros st; [reflexivity|].
  simpl. rewrite Hstep.
  destruct (std_next g2 st) as [[f|e] st1]; [|reflexivity].
  destruct (await f); [|reflexivity]. rewrite IH. reflexivity.
Qed.

Lemma as_completed_step_total {X : Type} (items : list (future X)) loop timeout
      tot tot' sch g1 g2 w1 w2 :
  as_completed items loop timeout tot sch = (Return g1, w1) ->
  as_completed items loop timeout tot' sch = (Return g2, w2) ->
  w1 = w2 /\ forall st, std_next g1 st = std_next g2 st.
Proof.
  intros H1 H2.
  destruct (as_completed_step H1) as (-> & _ & S1).
  destruct (as_completed_step H2) as (-> & _ & S2).
  split; [reflexivity|]. intros [k lg]. rewrite S1, S2. reflexivity.
Qed.

Lemma gather_collect_total fs loop timeout tot tot' sch :
  gather_collect fs loop timeout tot sch = gather_collect fs loop timeout tot' sch.
Proof.
  unfold gather_collect.
  destruct (comprehension _ (seq 0 (length fs))) as [numbered|e]; [|reflexivity].
  destruct (as_completed_returns numbered loop timeout
              (match tot with None => Some (length fs) | Some t => Some t end) sch)
    as [g1 H1].
  destruct (as_completed_returns numbered loop timeout
              (match tot' with None => Some (length fs) | Some t => Some t end) sch)
    as [g2 H2].
  rewrite H1, H2.
  apply await_each_ext. apply (as_completed_step_total H1 H2).
Qed.

(** The total that gather is given reaches the display only: the list
    returned or the exception raised, the position reached in the sequence
    of completions and the update and close calls made are the same for
    every total, given or not. *)
Theorem gather_result_independent_of_total fs loop timeout tot tot' sch :
  gather fs loop timeout tot sch = gather fs loop timeout tot' sch.
Proof.
  unfold gather. rewrite (gather_collect_total fs loop timeout tot tot' sch).
  reflexivity.
Qed.

Lemma futures_all_or_failure fs :
  (exists rs, fs = succeeding rs) \/
  (exists i e, nth_error fs i = Some (Settled (Raise e))).
Proof.
  induction fs as [|[[r|e]] fs IH].
  - left. exists []. reflexivity.
  - destruct IH as [[rs ->]|(i & e & Hi)].
    + left. exists (r :: rs). reflexivity.
    + right. exists (S i), e. exact Hi.
  - right. exists 0, e. reflexivity.
Qed.

Lemma gather_succeeding rs loop timeout tot sch :
  fair sch (length rs) ->
  no_expiry timeout sch (length rs) ->
  gather (succeeding rs) loop timeout tot sch =
  Some (Return rs, mkState (length rs) (repeat Update (length rs) ++ [Close])).
Proof.
  intros Hf Hne. unfold gather.
  rewrite (@gather_collect_succeeding T rs loop timeout tot sch Hf Hne).
  pose proof (@select_pairs T rs sch Hf) as Hp.
  rewrite sorted_by_index.
  - erewrite stable_sort_restores by exact Hp.
    rewrite combine_seq_snd. reflexivity.
  - apply (Permutation_NoDup (Permutation_sym (Permutation_map fst Hp))).
    rewrite combine_seq_fst. apply seq_NoDup.
Qed.

Lemma gather_some_failure fs loop timeout tot sch :
  fair sch (length fs) ->
  no_expiry timeout sch (length fs) ->
  (exists i e, nth_error fs i = Some (Settled (Raise e))) ->
  exists e st, gather fs loop timeout tot sch = Some (Raise e, st).
Proof.
  intros Hf Hne (i & e & Hi).
  destruct (@first_failure T fs (order sch)) as (pre & i' & post & e' & Hord & Hi' & Hpre).
  - intros j Hj. apply (proj1 (@fair_index sch (length fs) j Hf)). exact Hj.
  - exists i, e. split; [|exact Hi].
    apply (proj2 (@fair_index sch (length fs) i Hf)). apply nth_error_Some. congruence.
  - pose proof (@gather_collect_first_failure T fs loop timeout tot sch pre i' post e'
                  Hf Hne Hord Hi' Hpre) as Hc.
    eexists _, _. unfold gather. rewrite Hc. reflexivity.
Qed.

(** gather returns a list only when every operation succeeded, and the list
    is then the operations' results in input order: there is no run, for
    any completion order, in which it returns a list while some operation
    failed, nor one in which the list misses, repeats or reorders a
    result. *)
Theorem gather_returns_only_complete_results fs loop timeout tot sch rs st :
  fair sch (length fs) ->
  no_expiry timeout sch (length fs) ->
  gather fs loop timeout tot sch = Some (Return rs, st) ->
  fs = succeeding rs /\
  st = mkState (length fs) (repeat Update (length fs) ++ [Close]).
Proof.
  intros Hf Hne Hg.
  destruct (futures_all_or_failure fs) as [[rs' ->]|Hfail].
  - assert (Hlen : length (succeeding rs') = length rs') by apply length_map.
    rewrite Hlen in *.
    rewrite (@gather_succeeding rs' loop timeout tot sch Hf Hne) in Hg.
    injection Hg as -> <-. split; reflexivity.
  - destruct (@gather_some_failure fs loop timeout tot sch Hf Hne Hfail) as (e & st' & He).
    rewrite He in Hg. discriminate.
Qed.

End GatherExtras.

Lemma gather_returns_only_complete_results_witness :
  [Settled (Return 10); Settled (Return 20); Settled (Return 30)] =
    succeeding [10; 20; 30] /\
  mkState 3 [Update; Update; Update; Close] =
    mkState (length [Settled (Return 10); Settled (Return 20); Settled (Return 30)])
            (repeat Update
               (length [Settled (Return 10); Settled (Return 20); Settled (Return 30)])
             ++ [Close]).
Proof.
  exact (@gather_returns_only_complete_results nat PyOrd_int
           [Settled (Return 10); Settled (Return 20); Settled (Return 30)]
           None None None (mkSchedule [2; 0; 1] 3) [10; 20; 30]
           (mkState 3 [Update; Update; Update; Close])
           (fair_rotation 3) (@no_expiry_in_time None [2; 0; 1] 3) eq_refl).
Defined.

Section TaggedResults.

Context {T : Type}.

Lemma in_combine_seq (rs : list T) : forall k i r,
  In (i, r) (combine (seq k (length rs)) rs) <->
  k <= i /\ nth_error rs (i - k) = Some r.
Proof.
  induction rs as [|r0 rs IH]; intros k i r; simpl.
  - split; [intros []|]. intros [_ H]. destruct (i - k); discriminate.
  - rewrite IH. split.
    + intros [[= <- <-]|[Hle Hn]].
      * split; [lia|]. rewrite Nat.sub_diag. reflexivity.
      * split; [lia|]. replace (i - k) with (S (i - S k)) by lia. exact Hn.
    + intros [Hle Hn]. destruct (i - k) as [|d] eqn:E.
      * left. injection Hn as <-. f_equal. lia.
      * right. split; [lia|]. replace (i - S k) with d by lia. exact Hn.
Qed.

(** When every operation succeeds, each pair gather collects carries the
    result of the operation its index names, and every operation has its
    pair: [(i, r)] is collected exactly when the operation at position [i]
    of the input has result [r], whatever the completion order. *)
Theorem collected_pairs_are_tagged_results (rs : list T) loop timeout tot sch :
  fair sch (length rs) ->
  no_expiry timeout sch (length rs) ->
  exists pairs st,
    gather_collect (succeeding rs) loop timeout tot sch = Some (Return pairs, st) /\
    length pairs = length rs /\
    forall i r, In (i, r) pairs <-> nth_error rs i = Some r.
Proof.
  intros Hf Hne.
  pose proof (@gather_collect_succeeding T rs loop timeout tot sch Hf Hne) as Hc.
  pose proof (@select_pairs T rs sch Hf) as Hp.
  eexists _, _. split; [exact Hc|]. split.
  - rewrite (Permutation_length Hp), length_combine, length_seq. apply Nat.min_id.
  - intros i r. split.
    + intros Hin. apply (Permutation_in _ Hp) in Hin.
      apply in_combine_seq in Hin. destruct Hin as [_ Hn].
      rewrite Nat.sub_0_r in Hn. exact Hn.
    + intros Hn. apply (Permutation_in _ (Permutation_sym Hp)).
      apply in_combine_seq. split; [lia|]. rewrite Nat.sub_0_r. exact Hn.
Qed.

End TaggedResults.

Lemma collected_pairs_are_tagged_results_witness :
  exists pairs st,
    gather_collect (succeeding [10; 20; 30]) None None None (mkSchedule [2; 0; 1] 3) =
      Some (Return pairs, st) /\
    length pairs = 3 /\
    forall i r, In (i, r) pairs <-> nth_error [10; 20; 30] i = Some r.
Proof.
  exact (@collected_pairs_are_tagged_results nat [10; 20; 30] None None None
           (mkSchedule [2; 0; 1] 3) (fair_rotation 3)
           (@no_expiry_in_time None [2; 0; 1] 3)).
Defined.
